(** * gcgserver: the version-gated message polyfill dispatcher

    A shallow embedding of [src/msg-polyfill/index.ts]: the private selection
    function [getPolyfillers] and the two exported asynchronous operations
    [polyfillGameMsg] and [polyfillResponse].

    Conventions of the embedding:
    - a protocol version (a JavaScript [number] used as an integer revision
      counter) is a [Z]; [version <= pVersion] is [Z.leb] and the comparator
      [a.version - b.version] is integer subtraction;
    - the registry is a JavaScript [Map]: an association list in insertion
      order whose keys are pairwise distinct ([JsMap.wf]);
    - [new polyfillerCls()] allocates a fresh object: the world carries the
      next free object identity, and an instance records its class and its
      identity;
    - an [async function] returns a freshly allocated promise that is settled
      with the value the body returns. *)

From Stdlib Require Import Strings.String Strings.Byte.
From Stdlib Require Import ZArith List Lia Bool Permutation Sorted.
Import ListNotations.
Open Scope Z_scope.

(** ** JavaScript values that cross the module boundary *)

(** A Node.js [Buffer]: a sequence of bytes. *)
Definition Buffer := list Byte.byte.

Inductive JsValue : Type :=
| JsUndefined
| JsBuffer (b : Buffer).

(** Modelled from the spec: the error kinds of section 7 (the source raises
    none); Malformed-Payload is the only one that is an error. *)
Inductive DispatchError : Type :=
| MalformedPayload.

Inductive Settlement : Type :=
| Fulfilled (v : JsValue)
| Rejected (e : DispatchError).

Record Promise : Type := mkPromise {
  promise_id : nat;
  settled : Settlement
}.

(** ** The JavaScript [Map] with number keys *)

Module JsMap.
Section WithValue.
Variable V : Type.

Definition t : Type := list (Z * V).

Definition empty : t := [].

(** [Map.prototype.set]: an existing key keeps its position, a new key goes
    to the end. *)
Fixpoint set (k : Z) (v : V) (m : t) : t :=
  match m with
  | [] => [(k, v)]
  | (k', v') :: rest =>
      if k' =? k then (k, v) :: rest else (k', v') :: set k v rest
  end.

(** [Map.prototype.entries]: the pairs in insertion order. *)
Definition entries (m : t) : list (Z * V) := m.

Definition keys (m : t) : list Z := map fst m.

Definition size (m : t) : nat := length m.

(** What every [Map] satisfies: no key occurs twice. *)
Definition wf (m : t) : Prop := NoDup (keys m).

End WithValue.
Arguments empty {V}.
Arguments set {V} k v m.
Arguments entries {V} m.
Arguments keys {V} m.
Arguments size {V} m.
Arguments wf {V} m.
End JsMap.

(** ** [Array.prototype.sort] with a comparator

    ECMAScript requires the sort to be stable; for a consistent comparator the
    result is then determined, whatever algorithm the engine runs.  The model
    is the stable insertion sort. *)

Section ArraySort.
Context {A : Type}.
Variable compareFn : A -> A -> Z.

Fixpoint sort_insert (x : A) (l : list A) : list A :=
  match l with
  | [] => [x]
  | y :: l' => if compareFn x y <=? 0 then x :: l else y :: sort_insert x l'
  end.

Fixpoint array_sort (l : list A) : list A :=
  match l with
  | [] => []
  | x :: l' => sort_insert x (array_sort l')
  end.

End ArraySort.

(** [l1] is a subsequence of [l2]: it is [l2] with some elements left out. *)
Inductive subseq {A : Type} : list A -> list A -> Prop :=
| subseq_nil : subseq [] []
| subseq_skip : forall x l1 l2, subseq l1 l2 -> subseq l1 (x :: l2)
| subseq_keep : forall x l1 l2, subseq l1 l2 -> subseq (x :: l1) (x :: l2).

(** Ordering by an integer key, weakly and strictly. *)
Definition le_by {A : Type} (key : A -> Z) (a b : A) : Prop := key a <= key b.
Definition lt_by {A : Type} (key : A -> Z) (a b : A) : Prop := key a < key b.

(** Modelled from the spec: the capability contract of [BasePolyfiller]
    ([./base-polyfiller] is not part of the sources): a predicate telling
    whether the polyfiller handles a message identifier, and a synchronous
    transformation of the buffer that may fail with Malformed-Payload. *)
Class PolyfillerContract (Cls : Type) : Type := {
  handles : Cls -> string -> bool;
  transform : Cls -> Buffer -> DispatchError + Buffer
}.

(** ** The module [msg-polyfill/index] *)

Section MsgPolyfill.
Variable Cls : Type.

(** An object made by [new polyfillerCls()]. *)
Record Instance : Type := mkInstance {
  instance_of : Cls;
  oid : nat
}.

(** The state a call runs in: the imported [polyfillRegistry] and the next
    free object identity. *)
Record World : Type := mkWorld {
  polyfillRegistry : JsMap.t Cls;
  next_oid : nat
}.

(** The elements of the local array [polyfillers]. *)
Record Selected : Type := mkSelected {
  version : Z;
  polyfiller : Instance
}.

(** The [for ... of polyfillRegistry.entries()] loop: [polyfillers] is the
    array so far, [next] the next free object identity. *)
Fixpoint scan (version : Z) (entries : list (Z * Cls))
    (polyfillers : list Selected) (next : nat) : list Selected * nat :=
  match entries with
  | [] => (polyfillers, next)
  | (pVersion, polyfillerCls) :: rest =>
      if version <=? pVersion then
        scan version rest
          (polyfillers ++
             [{| version := pVersion;
                 polyfiller := {| instance_of := polyfillerCls; oid := next |} |}])
          (S next)
      else scan version rest polyfillers next
  end.

(** The comparator [(a, b) => a.version - b.version]. *)
Definition compareFn (a b : Selected) : Z := version a - version b.

(** The array [polyfillers] after [polyfillers.sort(...)]. *)
Definition sortedPolyfillers (callerVersion : Z) (w : World) : list Selected :=
  array_sort compareFn
    (fst (scan callerVersion (JsMap.entries (polyfillRegistry w)) [] (next_oid w))).

Definition getPolyfillers (version : Z) (w : World) : list Instance * World :=
  let '(polyfillers, next) :=
    scan version (JsMap.entries (polyfillRegistry w)) [] (next_oid w) in
  (map polyfiller (array_sort compareFn polyfillers),
   {| polyfillRegistry := polyfillRegistry w; next_oid := next |}).

(** The selected registry entries behind the returned instances: each
    element of the sorted array as its version and class. *)
Definition entryOf (p : Selected) : Z * Cls :=
  (version p, instance_of (polyfiller p)).

Definition selectedEntries (callerVersion : Z) (w : World) : list (Z * Cls) :=
  map entryOf (sortedPolyfillers callerVersion w).

(** The comparator seen on the entries, and the test of the loop. *)
Definition entryCompare (a b : Z * Cls) : Z := fst a - fst b.

Definition applicable (callerVersion : Z) (e : Z * Cls) : bool :=
  callerVersion <=? fst e.

(** [async function polyfillGameMsg(version, msgTitle, buffer) { return undefined; }] *)
Definition polyfillGameMsg (version : Z) (msgTitle : string)
    (buffer : Buffer) (w : World) : Promise * World :=
  ({| promise_id := next_oid w; settled := Fulfilled JsUndefined |},
   {| polyfillRegistry := polyfillRegistry w; next_oid := S (next_oid w) |}).

(** [async function polyfillResponse(version, msgTitle, buffer) { return; }] *)
Definition polyfillResponse (version : Z) (msgTitle : string)
    (buffer : Buffer) (w : World) : Promise * World :=
  ({| promise_id := next_oid w; settled := Fulfilled JsUndefined |},
   {| polyfillRegistry := polyfillRegistry w; next_oid := S (next_oid w) |}).

End MsgPolyfill.

Arguments instance_of {Cls} i.
Arguments oid {Cls} i.
Arguments mkInstance {Cls} instance_of oid.
Arguments polyfillRegistry {Cls} w.
Arguments next_oid {Cls} w.
Arguments mkWorld {Cls} polyfillRegistry next_oid.
Arguments version {Cls} s.
Arguments polyfiller {Cls} s.
Arguments mkSelected {Cls} version polyfiller.
Arguments scan {Cls} version entries polyfillers next.
Arguments compareFn {Cls} a b.
Arguments sortedPolyfillers {Cls} callerVersion w.
Arguments getPolyfillers {Cls} version w.
Arguments selectedEntries {Cls} callerVersion w.
Arguments entryOf {Cls} p.
Arguments entryCompare {Cls} a b.
Arguments applicable {Cls} callerVersion e.
Arguments polyfillGameMsg {Cls} version msgTitle buffer w.
Arguments polyfillResponse {Cls} version msgTitle buffer w.

(** ** The pipeline the dispatcher is meant to run *)

Section Intended.
Context {Cls : Type} `{PolyfillerContract Cls}.

(** No selected polyfiller declares handling for [msgTitle]. *)
Definition unrecognized (msgTitle : string) (ps : list (Instance Cls)) : Prop :=
  Forall (fun p => handles (instance_of p) msgTitle = false) ps.

(** Modelled from the spec: the behaviour section 4.1 intends for the two
    operations, which the source does not implement: each selected
    polyfiller that handles [msgTitle] replaces the buffer by its output, the
    others pass it through, and the first failure ends the chain. *)
Fixpoint applyChain (ps : list (Instance Cls)) (msgTitle : string)
    (buffer : Buffer) : DispatchError + Buffer :=
  match ps with
  | [] => inr buffer
  | p :: rest =>
      if handles (instance_of p) msgTitle then
        match transform (instance_of p) buffer with
        | inl e => inl e
        | inr buffer' => applyChain rest msgTitle buffer'
        end
      else applyChain rest msgTitle buffer
  end.

End Intended.

(** ** The registry of the two scenarios of the specification *)

Module Scenario.

Inductive Demo : Type := PolyfillerA | PolyfillerB.

(** [{v1: PolyfillerA, v3: PolyfillerB}], registered in ascending order. *)
Definition registry : JsMap.t Demo :=
  JsMap.set 3 PolyfillerB (JsMap.set 1 PolyfillerA JsMap.empty).

(** The same mapping, registered in descending order. *)
Definition registry_rev : JsMap.t Demo :=
  JsMap.set 1 PolyfillerA (JsMap.set 3 PolyfillerB JsMap.empty).

Definition world : World Demo := mkWorld registry 0.

(** A contract for the two classes: each handles one message identifier and
    rejects an empty payload; [PolyfillerA] prefixes a byte, [PolyfillerB]
    appends one. *)
#[global] Instance contract : PolyfillerContract Demo := {|
  handles := fun cls msgTitle =>
    match cls with
    | PolyfillerA => String.eqb msgTitle "MSG_A"
    | PolyfillerB => String.eqb msgTitle "MSG_B"
    end;
  transform := fun cls buffer =>
    match buffer with
    | [] => inl MalformedPayload
    | _ :: _ =>
        match cls with
        | PolyfillerA => inr (Byte.x01 :: buffer)
        | PolyfillerB => inr (buffer ++ [Byte.x03])
        end
    end
|}.

Definition payload : Buffer := [Byte.x2a; Byte.xff].

End Scenario.

(** * The deployment script [bash/deploy-gcg-server.sh]

    The control skeleton of the script: the argument loop, the dependency
    gate and the menu dispatch, under [set -euo pipefail].

    Conventions of the embedding:
    - an exit status is a [Z]; a shell variable that only ever holds the
      words [true] and [false] is a [bool];
    - what the script does to the machine (packages, repositories, files,
      processes) is outside the model: each external command, and each menu
      function made of such commands only, is an [Action] whose status and
      effect on the environment are given by the host ([exec]); such an
      action is assumed to return;
    - a state records the actions run so far, in order ([trace]);
    - messages written with [echo] are not recorded. *)

Module Deploy.

(** The variables the argument loop assigns. *)
Record Options : Type := mkOptions {
  BASE_DIR : string;
  INSTALL_DEPS : bool;
  QUICK_RUN : string
}.

(** How the argument loop ends. *)
Inductive Parse : Type :=
| Parsed (o : Options)       (* no argument left: the script goes on *)
| Usage                      (* [--help]: the usage line, then [exit 0] *)
| UnknownArg (a : string)    (* [Unknown arg: a] on stderr, then [exit 1] *)
| UnboundVariable.           (* [$2] is unset: [set -u] stops the shell *)

(** [while [[ $# -gt 0 ]]; do case "$1" in ... esac; done] *)
Fixpoint parse_args (args : list string) (o : Options) : Parse :=
  match args with
  | [] => Parsed o
  | a :: rest =>
      if String.eqb a "--base-dir" then
        match rest with
        | [] => UnboundVariable
        | dir :: rest' =>
            parse_args rest'
              {| BASE_DIR := dir; INSTALL_DEPS := INSTALL_DEPS o;
                 QUICK_RUN := QUICK_RUN o |}
        end
      else if String.eqb a "--install-deps" then
        parse_args rest
          {| BASE_DIR := BASE_DIR o; INSTALL_DEPS := true;
             QUICK_RUN := QUICK_RUN o |}
      else if String.eqb a "--run" then
        match rest with
        | [] => UnboundVariable
        | n :: rest' =>
            parse_args rest'
              {| BASE_DIR := BASE_DIR o; INSTALL_DEPS := INSTALL_DEPS o;
                 QUICK_RUN := n |}
        end
      else if String.eqb a "--help" then Usage
      else UnknownArg a
  end.

(** The values the variables hold before the loop; the default base
    directory is computed from the script's own path. *)
Definition defaults (default_base_dir : string) : Options :=
  {| BASE_DIR := default_base_dir; INSTALL_DEPS := false; QUICK_RUN := "" |}.

(** A command line seen as a list of options, to describe what the loop
    accepts. *)
Inductive Opt : Type :=
| OptBaseDir (dir : string)
| OptInstallDeps
| OptRun (n : string).

Definition render_opt (x : Opt) : list string :=
  match x with
  | OptBaseDir dir => ["--base-dir"%string; dir]
  | OptInstallDeps => ["--install-deps"%string]
  | OptRun n => ["--run"%string; n]
  end.

Definition render (opts : list Opt) : list string := flat_map render_opt opts.

Definition apply_opt (o : Options) (x : Opt) : Options :=
  match x with
  | OptBaseDir dir =>
      {| BASE_DIR := dir; INSTALL_DEPS := INSTALL_DEPS o; QUICK_RUN := QUICK_RUN o |}
  | OptInstallDeps =>
      {| BASE_DIR := BASE_DIR o; INSTALL_DEPS := true; QUICK_RUN := QUICK_RUN o |}
  | OptRun n =>
      {| BASE_DIR := BASE_DIR o; INSTALL_DEPS := INSTALL_DEPS o; QUICK_RUN := n |}
  end.

(** The external commands the skeleton runs directly, and the menu
    functions that consist of external commands. *)
Inductive Action : Type :=
| mkdir_base_dir           (* [mkdir -p "$BASE_DIR"] *)
| sudo_apt_update
| sudo_apt_install
| server_clone_update
| server_npm_install
| server_create_symlink
| server_start
| client_clone_update
| client_download_premake
| client_run_premake
| client_ensure_sqlite
| client_build
| client_move_ygopro
| update_services.

(** The machine the script runs on: whether [command -v tool] succeeds, and
    the status and effect of an action. *)
Class Host (Env : Type) : Type := {
  command_v : Env -> string -> bool;
  exec : Action -> Options -> Env -> Z * Env
}.

(** The tools of the loop [for tool in git curl wget unzip make npm tar]. *)
Definition required_tools : list string :=
  ["git"; "curl"; "wget"; "unzip"; "make"; "npm"; "tar"]%string.

(** The [case] on the choice: status 1 for the words [0] and [1], status 0
    for any other word. *)
Definition requires_dependencies (choice : string) : Z :=
  if String.eqb choice "0" || String.eqb choice "1" then 1 else 0.

Section Script.
Context {Env : Type} `{Host Env}.

Record State : Type := mkState {
  DEPENDENCIES_OK : bool;
  env : Env;
  trace : list Action
}.

Definition missing_tools (e : Env) : list string :=
  filter (fun tool => negb (command_v e tool)) required_tools.

Definition check_dependencies (e : Env) : Z :=
  match missing_tools e with
  | [] => 0
  | _ :: _ => 1
  end.

Definition set_dependencies_ok (b : bool) (s : State) : State :=
  {| DEPENDENCIES_OK := b; env := env s; trace := trace s |}.

(** Running an action: its status, and the state it leaves. *)
Definition call (a : Action) (o : Options) (s : State) : Z * State :=
  let '(status, e) := exec a o (env s) in
  (status, {| DEPENDENCIES_OK := DEPENDENCIES_OK s; env := e; trace := trace s ++ [a] |}).

(** A piece of script either returns to its caller or ends the script. *)
Inductive Flow : Type :=
| Returned (status : Z) (s : State)
| Exited (status : Z) (s : State).

Definition final (f : Flow) : State :=
  match f with
  | Returned _ s => s
  | Exited _ s => s
  end.

(** A command where [set -e] applies: a non-zero status ends the script. *)
Definition simple (r : Z * State) (k : State -> Flow) : Flow :=
  if fst r =? 0 then k (snd r) else Exited (fst r) (snd r).

(** A function call where [set -e] applies. *)
Definition andthen (f : Flow) (k : State -> Flow) : Flow :=
  match f with
  | Returned status s => if status =? 0 then k s else Exited status s
  | Exited status s => Exited status s
  end.

(** A function body that runs actions one after the other. *)
Fixpoint steps (actions : list Action) (o : Options) (s : State) : Flow :=
  match actions with
  | [] => Returned 0 s
  | a :: rest => simple (call a o s) (fun s' => steps rest o s')
  end.

Definition install_system_deps (o : Options) (s : State) : Flow :=
  simple (call sudo_apt_update o s) (fun s1 =>
  simple (call sudo_apt_install o s1) (fun s2 =>
  if check_dependencies (env s2) =? 0
  then Returned 0 (set_dependencies_ok true s2)
  else Returned 0 (set_dependencies_ok false s2))).

Definition full_client_build : Options -> State -> Flow :=
  steps [client_clone_update; client_download_premake; client_run_premake;
         client_ensure_sqlite; client_build; client_move_ygopro].

Definition full_server_prepare : Options -> State -> Flow :=
  steps [server_clone_update; server_npm_install; server_create_symlink].

Definition full_deploy_all (o : Options) (s : State) : Flow :=
  andthen (if INSTALL_DEPS o then install_system_deps o s else Returned 0 s)
    (fun s1 => andthen (full_client_build o s1)
    (fun s2 => full_server_prepare o s2)).

(** The status the function returns, and the state it leaves; its caller
    tests the status, so [set -e] does not apply inside. *)
Definition ensure_dependencies_for_choice (choice : string) (s : State) : Z * State :=
  if requires_dependencies choice =? 0 then
    if negb (DEPENDENCIES_OK s) then (1, s)
    else if negb (check_dependencies (env s) =? 0)
         then (1, set_dependencies_ok false s)
         else (0, s)
  else (0, s).

Definition run_item (o : Options) (choice : string) (s : State) : Flow :=
  let '(status, s1) := ensure_dependencies_for_choice choice s in
  if negb (status =? 0) then Returned 1 s1
  else if String.eqb choice "1" then install_system_deps o s1
  else if String.eqb choice "2" then steps [server_clone_update] o s1
  else if String.eqb choice "3" then steps [server_npm_install] o s1
  else if String.eqb choice "4" then steps [server_create_symlink] o s1
  else if String.eqb choice "5" then steps [server_start] o s1
  else if String.eqb choice "6" then steps [client_clone_update] o s1
  else if String.eqb choice "7" then steps [client_download_premake] o s1
  else if String.eqb choice "8" then steps [client_run_premake] o s1
  else if String.eqb choice "9" then steps [client_ensure_sqlite] o s1
  else if String.eqb choice "10" then steps [client_build] o s1
  else if String.eqb choice "11" then steps [client_move_ygopro] o s1
  else if String.eqb choice "12" then full_client_build o s1
  else if String.eqb choice "13" then full_deploy_all o s1
  else if String.eqb choice "14" then steps [update_services] o s1
  else if String.eqb choice "0" then Exited 0 s1
  else Returned 0 s1.

(** [for num in $CHOICE; do run_item "$num"; done], on the words the shell
    obtains from [$CHOICE]. *)
Fixpoint run_items (o : Options) (words : list string) (s : State) : Flow :=
  match words with
  | [] => Returned 0 s
  | num :: rest => andthen (run_item o num s) (fun s' => run_items o rest s')
  end.

(** The loop [while true], one input line (as its words) per round; when
    the input ends, [read] fails and [set -e] ends the script. *)
Fixpoint interactive (o : Options) (lines : list (list string)) (s : State) : Flow :=
  match lines with
  | [] => Exited 1 s
  | words :: rest =>
      andthen (run_items o words s) (fun s' => interactive o rest s')
  end.

(** The check made once, before the menu. *)
Definition startup_check (o : Options) (s : State) : State :=
  if negb (String.eqb (QUICK_RUN o) "1") && negb (INSTALL_DEPS o) then
    if negb (check_dependencies (env s) =? 0)
    then set_dependencies_ok false s
    else s
  else s.

(** The script after its argument loop. *)
Definition main (o : Options) (lines : list (list string)) (e : Env) : Flow :=
  simple (call mkdir_base_dir o {| DEPENDENCIES_OK := true; env := e; trace := [] |})
    (fun s1 =>
       let s2 := startup_check o s1 in
       if negb (String.eqb (QUICK_RUN o) "") then
         andthen (run_item o (QUICK_RUN o) s2) (fun s3 => Exited 0 s3)
       else interactive o lines s2).

End Script.

Arguments State Env : clear implicits.
Arguments Flow Env : clear implicits.

(** A small host for examples: the environment is the list of installed
    tools; [apt install] installs the required ones, [update_services]
    fails, and every other action succeeds without installing anything. *)
Module Demo.

Definition Machine : Type := list string.

#[global] Instance host : Host Machine := {|
  command_v := fun e tool => existsb (String.eqb tool) e;
  exec := fun a _ e =>
    match a with
    | sudo_apt_install => (0, (required_tools ++ e)%list)
    | update_services => (1, e)
    | _ => (0, e)
    end
|}.

Definition ready : State Machine :=
  {| DEPENDENCIES_OK := true; env := required_tools; trace := [] |}.

Definition bare : State Machine :=
  {| DEPENDENCIES_OK := false; env := []; trace := [] |}.

End Demo.

End Deploy.

(** Decides that a concrete registry has pairwise distinct keys. *)
Ltac scenario_wf :=
  unfold JsMap.wf; simpl; repeat constructor; simpl; intuition discriminate.

(** ** Facts about the sort *)

Section SortFacts.
Context {A : Type}.
Variable cmp : A -> A -> Z.
Variable key : A -> Z.
Hypothesis cmp_key : forall a b, cmp a b = key a - key b.

Lemma sort_insert_perm (x : A) (l : list A) :
  Permutation (sort_insert cmp x l) (x :: l).
Proof.
  induction l as [|y l IH]; simpl.
  - apply Permutation_refl.
  - destruct (cmp x y <=? 0).
    + apply Permutation_refl.
    + rewrite perm_swap. now apply perm_skip.
Qed.

Lemma array_sort_perm (l : list A) : Permutation (array_sort cmp l) l.
Proof.
  induction l as [|x l IH]; simpl; [constructor|].
  rewrite sort_insert_perm. now constructor.
Qed.

Lemma sort_insert_sorted (x : A) (l : list A) :
  StronglySorted (le_by key) l -> StronglySorted (le_by key) (sort_insert cmp x l).
Proof.
  induction 1 as [|y l Hs IH Hy]; simpl.
  - repeat constructor.
  - destruct (cmp x y <=? 0) eqn:E.
    + apply Z.leb_le in E. rewrite cmp_key in E.
      constructor; [now constructor|].
      constructor; [unfold le_by; lia|].
      eapply Forall_impl; [|exact Hy].
      unfold le_by; intros; lia.
    + apply Z.leb_gt in E. rewrite cmp_key in E.
      constructor; [exact IH|].
      eapply Permutation_Forall; [symmetry; apply sort_insert_perm|].
      constructor; [unfold le_by; lia|exact Hy].
Qed.

Lemma array_sort_sorted (l : list A) : StronglySorted (le_by key) (array_sort cmp l).
Proof.
  induction l as [|x l IH]; simpl.
  - constructor.
  - now apply sort_insert_sorted.
Qed.

Lemma sorted_nodup_strict (l : list A) :
  StronglySorted (le_by key) l -> NoDup (map key l) -> StronglySorted (lt_by key) l.
Proof.
  induction 1 as [|x l Hs IH Hx]; intros Hnd; [constructor|].
  simpl in Hnd. apply NoDup_cons_iff in Hnd as [Hnotin Hnd].
  constructor; [now apply IH|].
  rewrite Forall_forall in Hx |- *.
  intros y Hy. specialize (Hx y Hy). unfold le_by in Hx. unfold lt_by.
  assert (key y <> key x).
  { intros Heq. apply Hnotin. rewrite <- Heq. now apply in_map. }
  lia.
Qed.

Lemma array_sort_strict (l : list A) :
  NoDup (map key l) -> StronglySorted (lt_by key) (array_sort cmp l).
Proof.
  intros Hnd. apply sorted_nodup_strict; [apply array_sort_sorted|].
  eapply Permutation_NoDup; [|exact Hnd].
  apply Permutation_map. symmetry. apply array_sort_perm.
Qed.

(** Inserting in front of a list whose elements are all at least [x]. *)
Lemma sort_insert_front (x : A) (l : list A) :
  Forall ((le_by key) x) l -> sort_insert cmp x l = x :: l.
Proof.
  destruct 1 as [|y l Hy _]; simpl; [reflexivity|].
  unfold le_by in Hy. rewrite cmp_key.
  destruct (key x - key y <=? 0) eqn:E; [reflexivity|].
  apply Z.leb_gt in E. lia.
Qed.

Lemma sort_insert_filter (p : A -> bool) (x : A) (l : list A) :
  StronglySorted (le_by key) l ->
  filter p (sort_insert cmp x l) =
  if p x then sort_insert cmp x (filter p l) else filter p l.
Proof.
  induction 1 as [|y l Hs IH Hy]; simpl.
  - now destruct (p x).
  - destruct (cmp x y <=? 0) eqn:E; simpl.
    + destruct (p x) eqn:Px; [|reflexivity].
      apply Z.leb_le in E. rewrite cmp_key in E.
      symmetry. apply (sort_insert_front x (filter p (y :: l))).
      apply Forall_forall. intros z Hz.
      apply filter_In in Hz as [Hz _].
      destruct Hz as [<-|Hz]; [unfold le_by; lia|].
      rewrite Forall_forall in Hy. specialize (Hy z Hz).
      unfold le_by in *; lia.
    + rewrite IH. destruct (p y), (p x); simpl; rewrite ?E; reflexivity.
Qed.

(** The stable sort commutes with filtering. *)
Lemma array_sort_filter (p : A -> bool) (l : list A) :
  array_sort cmp (filter p l) = filter p (array_sort cmp l).
Proof.
  induction l as [|x l IH]; simpl; [reflexivity|].
  rewrite sort_insert_filter by apply array_sort_sorted.
  destruct (p x); simpl; now rewrite IH.
Qed.

(** Sorting a list that is already in order changes nothing. *)
Lemma array_sort_id (l : list A) :
  StronglySorted (le_by key) l -> array_sort cmp l = l.
Proof.
  induction 1 as [|x l Hs IH Hx]; simpl; [reflexivity|].
  rewrite IH. now apply sort_insert_front.
Qed.

(** With distinct keys there is one ascending arrangement. *)
Lemma sorted_perm_unique (l1 : list A) : forall l2,
  StronglySorted (lt_by key) l1 -> StronglySorted (lt_by key) l2 ->
  Permutation l1 l2 -> l1 = l2.
Proof.
  induction l1 as [|x l1 IH]; intros l2 S1 S2 Hp.
  - apply Permutation_nil in Hp. now subst.
  - destruct l2 as [|y l2]; [apply Permutation_sym, Permutation_nil in Hp; discriminate|].
    inversion S1 as [|? ? S1' F1]; inversion S2 as [|? ? S2' F2]; subst.
    rewrite Forall_forall in F1, F2.
    assert (Hxy : x = y).
    { assert (Hx : In x (y :: l2)) by (apply (Permutation_in _ Hp); now left).
      assert (Hy : In y (x :: l1))
        by (apply (Permutation_in _ (Permutation_sym Hp)); now left).
      destruct Hx as [->|Hx]; [reflexivity|].
      destruct Hy as [->|Hy]; [reflexivity|].
      specialize (F1 y Hy). specialize (F2 x Hx). unfold lt_by in *. lia. }
    subst y. f_equal. apply IH; [assumption..|].
    now apply Permutation_cons_inv in Hp.
Qed.

Lemma array_sort_unique (l l' : list A) :
  NoDup (map key l) -> Permutation l' l -> StronglySorted (lt_by key) l' ->
  array_sort cmp l = l'.
Proof.
  intros Hnd Hp Hs. apply sorted_perm_unique.
  - now apply array_sort_strict.
  - exact Hs.
  - rewrite array_sort_perm. now symmetry.
Qed.

End SortFacts.

Section SortMap.
Context {A B : Type}.
Variable f : A -> B.
Variable cmpA : A -> A -> Z.
Variable cmpB : B -> B -> Z.
Hypothesis cmp_f : forall a b, cmpB (f a) (f b) = cmpA a b.

Lemma sort_insert_map (x : A) (l : list A) :
  map f (sort_insert cmpA x l) = sort_insert cmpB (f x) (map f l).
Proof.
  induction l as [|y l IH]; simpl; [reflexivity|].
  rewrite cmp_f. destruct (cmpA x y <=? 0); simpl; congruence.
Qed.

Lemma array_sort_map (l : list A) :
  map f (array_sort cmpA l) = array_sort cmpB (map f l).
Proof.
  induction l as [|x l IH]; simpl; [reflexivity|].
  now rewrite sort_insert_map, IH.
Qed.

End SortMap.

(** ** Facts about subsequences *)

Lemma subseq_refl {A : Type} (l : list A) : subseq l l.
Proof. induction l; constructor; assumption. Qed.

Lemma subseq_filter {A : Type} (p : A -> bool) (l : list A) :
  subseq (filter p l) l.
Proof.
  induction l as [|x l IH]; simpl; [constructor|].
  destruct (p x); now constructor.
Qed.

Lemma subseq_map {A B : Type} (f : A -> B) (l1 l2 : list A) :
  subseq l1 l2 -> subseq (map f l1) (map f l2).
Proof. induction 1; simpl; now constructor. Qed.

(** Leaving entries out of a registry keeps its versions distinct. *)
Lemma applicable_keys_nodup {Cls : Type} (C : Z) (es : list (Z * Cls)) :
  NoDup (map fst es) -> NoDup (map fst (filter (applicable C) es)).
Proof.
  intros Hnd. induction es as [|[pV cls] es IH]; simpl in *; [constructor|].
  inversion Hnd as [|? ? Hfresh Hrest]; subst.
  destruct (applicable C (pV, cls)); simpl; [|auto].
  constructor; [|auto].
  contradict Hfresh.
  apply in_map_iff in Hfresh as ([pV' cls'] & Heq & Hin). simpl in Heq. subst pV'.
  apply filter_In in Hin as [Hin _].
  apply in_map_iff. now exists (pV, cls').
Qed.

(** ** The loop of [getPolyfillers] *)

Section ScanFacts.
Context {Cls : Type}.
Implicit Types (es : list (Z * Cls)) (acc : list (Selected Cls)).

Lemma scan_entries (C : Z) es : forall acc n,
  map entryOf (fst (scan C es acc n)) = map entryOf acc ++ filter (applicable C) es.
Proof.
  induction es as [|[pV cls] es IH]; intros acc n; simpl.
  - now rewrite app_nil_r.
  - change (applicable C (pV, cls)) with (C <=? pV).
    destruct (C <=? pV); rewrite IH; [|reflexivity].
    rewrite map_app, <- app_assoc. reflexivity.
Qed.

(** The instances the loop makes take the free identities in order, and
    the counter advances by their number. *)
Lemma scan_oids (C : Z) es : forall acc n,
  map (fun p => oid (polyfiller p)) (fst (scan C es acc n)) =
    map (fun p => oid (polyfiller p)) acc ++
    seq n (length (filter (applicable C) es)) /\
  snd (scan C es acc n) = (n + length (filter (applicable C) es))%nat.
Proof.
  induction es as [|[pV cls] es IH]; intros acc n; simpl.
  - rewrite app_nil_r. split; [reflexivity|lia].
  - change (applicable C (pV, cls)) with (C <=? pV).
    destruct (C <=? pV); [|apply IH].
    destruct (IH (acc ++ [mkSelected pV (mkInstance cls n)]) (S n)) as [Hfst Hsnd].
    rewrite Hfst, Hsnd, map_app, <- app_assoc. simpl. split; [reflexivity|lia].
Qed.

Lemma scan_versions_nodup (C : Z) es (n : nat) :
  NoDup (map fst es) -> NoDup (map version (fst (scan C es [] n))).
Proof.
  intros Hnd.
  pose proof (scan_entries C es [] n) as Hs. simpl in Hs.
  assert (Hkeys : map version (fst (scan C es [] n)) =
                  map fst (filter (applicable C) es)).
  { rewrite <- Hs, map_map. reflexivity. }
  rewrite Hkeys. now apply applicable_keys_nodup.
Qed.

End ScanFacts.

(** ** What [getPolyfillers] returns *)

Section Selection.
Context {Cls : Type}.
Implicit Types (w : World Cls) (C : Z).

Lemma getPolyfillers_fst C w :
  fst (getPolyfillers C w) = map polyfiller (sortedPolyfillers C w).
Proof.
  unfold getPolyfillers, sortedPolyfillers.
  now destruct (scan C (JsMap.entries (polyfillRegistry w)) [] (next_oid w)).
Qed.

Lemma getPolyfillers_registry C w :
  polyfillRegistry (snd (getPolyfillers C w)) = polyfillRegistry w.
Proof.
  unfold getPolyfillers.
  now destruct (scan C (JsMap.entries (polyfillRegistry w)) [] (next_oid w)).
Qed.

(** The selection is the sorted filter of the registry's entries. *)
Lemma selectedEntries_spec C w :
  selectedEntries C w =
  array_sort entryCompare (filter (applicable C) (JsMap.entries (polyfillRegistry w))).
Proof.
  unfold selectedEntries, sortedPolyfillers.
  rewrite (array_sort_map entryOf compareFn entryCompare) by reflexivity.
  now rewrite scan_entries.
Qed.

Lemma getPolyfillers_classes C w :
  map instance_of (fst (getPolyfillers C w)) = map snd (selectedEntries C w).
Proof.
  rewrite getPolyfillers_fst. unfold selectedEntries.
  rewrite !map_map. reflexivity.
Qed.

Lemma selectedEntries_perm C w :
  Permutation (selectedEntries C w)
              (filter (applicable C) (JsMap.entries (polyfillRegistry w))).
Proof.
  rewrite selectedEntries_spec.
  apply (array_sort_perm entryCompare).
Qed.

Lemma selectedEntries_In C w (pVersion : Z) (cls : Cls) :
  In (pVersion, cls) (selectedEntries C w) <->
  In (pVersion, cls) (JsMap.entries (polyfillRegistry w)) /\ C <= pVersion.
Proof.
  split.
  - intros Hin. apply (Permutation_in _ (selectedEntries_perm C w)) in Hin.
    apply filter_In in Hin as [Hin Hle]. split; [exact Hin|].
    now apply Z.leb_le in Hle.
  - intros [Hin Hle].
    apply (Permutation_in _ (Permutation_sym (selectedEntries_perm C w))).
    apply filter_In. split; [exact Hin|]. now apply Z.leb_le.
Qed.

Lemma getPolyfillers_length C w :
  length (fst (getPolyfillers C w)) =
  length (filter (applicable C) (JsMap.entries (polyfillRegistry w))).
Proof.
  rewrite <- (length_map instance_of), getPolyfillers_classes, length_map.
  apply Permutation_length, selectedEntries_perm.
Qed.

Lemma selectedEntries_sorted C w :
  StronglySorted (le_by fst) (selectedEntries C w).
Proof.
  rewrite selectedEntries_spec.
  apply (array_sort_sorted entryCompare fst). reflexivity.
Qed.

End Selection.

(** ** List facts used below *)

Lemma filter_none {A : Type} (p : A -> bool) (l : list A) :
  (forall x, In x l -> p x = false) -> filter p l = [].
Proof.
  induction l as [|x l IH]; intros Hp; simpl; [reflexivity|].
  rewrite (Hp x (or_introl eq_refl)). apply IH.
  intros y Hy. apply Hp. now right.
Qed.

Lemma filter_all {A : Type} (p : A -> bool) (l : list A) :
  (forall x, In x l -> p x = true) -> filter p l = l.
Proof.
  induction l as [|x l IH]; intros Hp; simpl; [reflexivity|].
  rewrite (Hp x (or_introl eq_refl)). f_equal. apply IH.
  intros y Hy. apply Hp. now right.
Qed.

Lemma filter_narrow {A : Type} (p q : A -> bool) (l : list A) :
  (forall x, q x = true -> p x = true) ->
  filter q (filter p l) = filter q l.
Proof.
  intros Hqp. induction l as [|x l IH]; simpl; [reflexivity|].
  destruct (p x) eqn:Px; simpl.
  - now rewrite IH.
  - destruct (q x) eqn:Qx; [|exact IH].
    apply Hqp in Qx. congruence.
Qed.

(** In a sorted list, an earlier position holds a smaller element. *)
Lemma StronglySorted_nth_error {A : Type} (R : A -> A -> Prop) (l : list A) :
  StronglySorted R l ->
  forall i j a b, (i < j)%nat ->
    nth_error l i = Some a -> nth_error l j = Some b -> R a b.
Proof.
  induction 1 as [|x l Hs IH Hx]; intros i j a b Hij Hi Hj.
  - destruct i; discriminate.
  - destruct j as [|j]; [lia|]. simpl in Hj.
    destruct i as [|i]; simpl in Hi.
    + injection Hi as <-. rewrite Forall_forall in Hx.
      apply Hx. eapply nth_error_In; eassumption.
    + apply (IH i j); [lia|assumption..].
Qed.

(** Maps built with [set] from the empty map have distinct keys. *)
Lemma JsMap_wf_empty {V : Type} : JsMap.wf (@JsMap.empty V).
Proof. constructor. Qed.

Lemma JsMap_set_keys {V : Type} (k : Z) (v : V) (m : JsMap.t V) (k' : Z) :
  In k' (JsMap.keys (JsMap.set k v m)) <-> k' = k \/ In k' (JsMap.keys m).
Proof.
  induction m as [|[k0 v0] m IH]; simpl.
  - intuition.
  - destruct (k0 =? k) eqn:E; simpl.
    + apply Z.eqb_eq in E. subst k0. intuition.
    + rewrite IH. intuition.
Qed.

Lemma JsMap_wf_set {V : Type} (k : Z) (v : V) (m : JsMap.t V) :
  JsMap.wf m -> JsMap.wf (JsMap.set k v m).
Proof.
  unfold JsMap.wf.
  induction m as [|[k0 v0] m IH]; simpl; intros Hnd.
  - repeat constructor. intros [].
  - apply NoDup_cons_iff in Hnd as [Hnotin Hnd].
    destruct (k0 =? k) eqn:E; simpl.
    + apply Z.eqb_eq in E. subst k0. now constructor.
    + apply Z.eqb_neq in E. constructor; [|now apply IH].
      intros Hin. apply JsMap_set_keys in Hin as [->|Hin]; [now apply E|].
      now apply Hnotin.
Qed.

Lemma keys_of_entries {Cls : Type} (m : JsMap.t Cls) (pVersion : Z) (cls : Cls) :
  In (pVersion, cls) (JsMap.entries m) -> In pVersion (JsMap.keys m).
Proof.
  intros Hin. unfold JsMap.keys.
  change pVersion with (fst (pVersion, cls)). now apply in_map.
Qed.

(** ** The claims about selection *)

(** C1: the selection contains exactly the registry entries whose version is
    at least the caller version: an entry is selected if and only if it is
    registered with a version [>= C], nothing is selected twice or dropped
    (the selection is a permutation of the matching entries), and the
    returned instances are instances of the selected classes, in order. *)
Theorem getPolyfillers_selects_exactly {Cls : Type} (C : Z) (w : World Cls) :
  (forall pVersion cls,
      In (pVersion, cls) (selectedEntries C w) <->
      In (pVersion, cls) (JsMap.entries (polyfillRegistry w)) /\ C <= pVersion) /\
  Permutation (selectedEntries C w)
              (filter (applicable C) (JsMap.entries (polyfillRegistry w))) /\
  map instance_of (fst (getPolyfillers C w)) = map snd (selectedEntries C w).
Proof.
  split; [|split].
  - intros pVersion cls. apply selectedEntries_In.
  - apply selectedEntries_perm.
  - apply getPolyfillers_classes.
Qed.

(** C2: on a registry (a map: no version registered twice) the sorted array
    is strictly ascending by version, the returned sequence is that array's
    polyfillers, and for registered versions [C <= V1 < V2] the [V1] entry
    sits at a strictly smaller position of the result than the [V2] entry. *)
Theorem getPolyfillers_strictly_ascending {Cls : Type} (C : Z) (w : World Cls) :
  JsMap.wf (polyfillRegistry w) ->
  StronglySorted (lt_by version) (sortedPolyfillers C w) /\
  fst (getPolyfillers C w) = map polyfiller (sortedPolyfillers C w) /\
  forall V1 c1 V2 c2,
    In (V1, c1) (JsMap.entries (polyfillRegistry w)) ->
    In (V2, c2) (JsMap.entries (polyfillRegistry w)) ->
    C <= V1 -> V1 < V2 ->
    exists i j, (i < j)%nat /\
      nth_error (selectedEntries C w) i = Some (V1, c1) /\
      nth_error (selectedEntries C w) j = Some (V2, c2) /\
      option_map instance_of (nth_error (fst (getPolyfillers C w)) i) = Some c1 /\
      option_map instance_of (nth_error (fst (getPolyfillers C w)) j) = Some c2.
Proof.
  intros Hwf. split; [|split].
  - unfold sortedPolyfillers.
    apply (array_sort_strict compareFn version); [reflexivity|].
    apply scan_versions_nodup. exact Hwf.
  - apply getPolyfillers_fst.
  - intros V1 c1 V2 c2 H1 H2 HC Hlt.
    assert (S1 : In (V1, c1) (selectedEntries C w))
      by (apply selectedEntries_In; auto).
    assert (S2 : In (V2, c2) (selectedEntries C w))
      by (apply selectedEntries_In; split; [assumption|lia]).
    apply In_nth_error in S1 as [i Hi]. apply In_nth_error in S2 as [j Hj].
    pose proof (StronglySorted_nth_error _ _ (selectedEntries_sorted C w)) as Hord.
    assert (Hij : (i < j)%nat).
    { destruct (Nat.lt_trichotomy i j) as [Hl|[He|Hg]]; [exact Hl| |].
      - subst j. rewrite Hi in Hj. injection Hj as -> _. lia.
      - specialize (Hord j i _ _ Hg Hj Hi). unfold le_by in Hord; simpl in Hord. lia. }
    exists i, j. split; [exact Hij|]. split; [exact Hi|]. split; [exact Hj|].
    rewrite <- !nth_error_map, getPolyfillers_classes, !nth_error_map.
    now rewrite Hi, Hj.
Qed.

Lemma getPolyfillers_strictly_ascending_witness :
  JsMap.wf (polyfillRegistry Scenario.world) /\
  StronglySorted (lt_by version) (sortedPolyfillers 0 Scenario.world) /\
  exists i j, (i < j)%nat /\
    nth_error (selectedEntries 0 Scenario.world) i = Some (1, Scenario.PolyfillerA) /\
    nth_error (selectedEntries 0 Scenario.world) j = Some (3, Scenario.PolyfillerB).
Proof.
  assert (Hwf : JsMap.wf (polyfillRegistry Scenario.world)).
  { scenario_wf. }
  split; [exact Hwf|].
  destruct (getPolyfillers_strictly_ascending 0 Scenario.world Hwf) as (Hs & _ & Hpos).
  split; [exact Hs|].
  destruct (Hpos 1 Scenario.PolyfillerA 3 Scenario.PolyfillerB)
    as (i & j & Hij & Hi & Hj & _); simpl; auto; try lia.
  exists i, j. auto.
Defined.

Section Range.
Context {Cls : Type}.
Implicit Types (w : World Cls) (C : Z).

Lemma selection_empty C w :
  (forall pVersion, In pVersion (JsMap.keys (polyfillRegistry w)) -> pVersion < C) ->
  fst (getPolyfillers C w) = [].
Proof.
  intros Habove. apply length_zero_iff_nil.
  rewrite getPolyfillers_length, filter_none; [reflexivity|].
  intros [pV cls] Hin. apply keys_of_entries, Habove in Hin.
  unfold applicable; simpl. now apply Z.leb_gt.
Qed.

Lemma selection_full C w :
  (forall pVersion, In pVersion (JsMap.keys (polyfillRegistry w)) -> C <= pVersion) ->
  filter (applicable C) (JsMap.entries (polyfillRegistry w)) =
  JsMap.entries (polyfillRegistry w).
Proof.
  intros Hbelow. apply filter_all.
  intros [pV cls] Hin. apply keys_of_entries, Hbelow in Hin.
  unfold applicable; simpl. now apply Z.leb_le.
Qed.

End Range.

(** C3: a caller version strictly greater than every registered version
    selects the empty sequence (the function is total: there is no error
    outcome), and a caller version less than or equal to every registered
    version selects as many polyfillers as the registry has entries. *)
Theorem getPolyfillers_out_of_range {Cls : Type} (C : Z) (w : World Cls) :
  ((forall pVersion, In pVersion (JsMap.keys (polyfillRegistry w)) -> pVersion < C) ->
   fst (getPolyfillers C w) = []) /\
  ((forall pVersion, In pVersion (JsMap.keys (polyfillRegistry w)) -> C <= pVersion) ->
   length (fst (getPolyfillers C w)) = JsMap.size (polyfillRegistry w)).
Proof.
  split.
  - apply selection_empty.
  - intros Hbelow. rewrite getPolyfillers_length, selection_full by assumption.
    reflexivity.
Qed.

Lemma getPolyfillers_out_of_range_witness :
  fst (getPolyfillers 4 Scenario.world) = [] /\
  length (fst (getPolyfillers 1 Scenario.world)) = 2%nat.
Proof.
  split.
  - apply (proj1 (getPolyfillers_out_of_range 4 Scenario.world)).
    simpl. intros pVersion [<-|[<-|[]]]; lia.
  - apply (proj2 (getPolyfillers_out_of_range 1 Scenario.world)).
    simpl. intros pVersion [<-|[<-|[]]]; lia.
Defined.

(** C4, as the specification states it, fails at the maximum registered
    version: with versions 1 and 3 registered, the caller version 3 is at the
    maximum and still selects the version-3 polyfiller. *)
Lemma at_maximum_not_empty :
  In 3 (JsMap.keys (polyfillRegistry Scenario.world)) /\
  (forall pVersion,
      In pVersion (JsMap.keys (polyfillRegistry Scenario.world)) -> pVersion <= 3) /\
  fst (getPolyfillers 3 Scenario.world) <> [].
Proof.
  split; [simpl; auto|]. split.
  - simpl. intros pVersion [<-|[<-|[]]]; lia.
  - discriminate.
Qed.

(** C4 (amended): a caller version strictly above every registered version
    selects nothing; a caller version strictly below every registered version
    selects the full registry: every entry, once, and as many instances as
    there are entries; a caller version that is itself registered (the
    maximum included) still selects its own entry. *)
Theorem getPolyfillers_outside_known_range {Cls : Type} (C : Z) (w : World Cls) :
  ((forall pVersion, In pVersion (JsMap.keys (polyfillRegistry w)) -> pVersion < C) ->
   fst (getPolyfillers C w) = [] /\ selectedEntries C w = []) /\
  ((forall pVersion, In pVersion (JsMap.keys (polyfillRegistry w)) -> C < pVersion) ->
   Permutation (selectedEntries C w) (JsMap.entries (polyfillRegistry w)) /\
   Permutation (map instance_of (fst (getPolyfillers C w)))
               (map snd (JsMap.entries (polyfillRegistry w)))) /\
  (forall cls, In (C, cls) (JsMap.entries (polyfillRegistry w)) ->
     In (C, cls) (selectedEntries C w) /\ fst (getPolyfillers C w) <> []).
Proof.
  split; [|split]; cycle 2.
  - intros cls Hin.
    assert (Hsel : In (C, cls) (selectedEntries C w))
      by (apply selectedEntries_In; split; [exact Hin|lia]).
    split; [exact Hsel|].
    intros Hnil. apply (f_equal (map instance_of)) in Hnil.
    rewrite getPolyfillers_classes in Hnil. simpl in Hnil.
    apply map_eq_nil in Hnil. rewrite Hnil in Hsel. destruct Hsel.
  - intros Habove. pose proof (selection_empty C w Habove) as Hnil.
    split; [exact Hnil|].
    apply (f_equal (map instance_of)) in Hnil.
    rewrite getPolyfillers_classes in Hnil.
    now apply map_eq_nil in Hnil.
  - intros Hbelow.
    assert (Hfull : Permutation (selectedEntries C w)
                                (JsMap.entries (polyfillRegistry w))).
    { eapply Permutation_trans; [apply selectedEntries_perm|].
      rewrite selection_full; [apply Permutation_refl|].
      intros pV Hin. apply Hbelow in Hin. lia. }
    split; [exact Hfull|].
    rewrite getPolyfillers_classes. now apply Permutation_map.
Qed.

Lemma getPolyfillers_outside_known_range_witness :
  fst (getPolyfillers 5 Scenario.world) = [] /\
  Permutation (selectedEntries 0 Scenario.world)
              (JsMap.entries (polyfillRegistry Scenario.world)).
Proof.
  split.
  - apply (proj1 (getPolyfillers_outside_known_range 5 Scenario.world)).
    simpl. intros pVersion [<-|[<-|[]]]; lia.
  - apply (proj2 (getPolyfillers_outside_known_range 0 Scenario.world)).
    simpl. intros pVersion [<-|[<-|[]]]; lia.
Defined.

(** C5: with version 1 mapped to PolyfillerA and version 3 to PolyfillerB,
    whichever was registered first and whatever the next object identity,
    caller version 2 selects one fresh PolyfillerB instance and caller
    version 0 selects a PolyfillerA instance followed by a PolyfillerB
    instance. *)
Theorem scenario_selection (n : nat) :
  fst (getPolyfillers 2 (mkWorld Scenario.registry n)) =
    [mkInstance Scenario.PolyfillerB n] /\
  fst (getPolyfillers 0 (mkWorld Scenario.registry n)) =
    [mkInstance Scenario.PolyfillerA n; mkInstance Scenario.PolyfillerB (S n)] /\
  fst (getPolyfillers 2 (mkWorld Scenario.registry_rev n)) =
    [mkInstance Scenario.PolyfillerB n] /\
  fst (getPolyfillers 0 (mkWorld Scenario.registry_rev n)) =
    [mkInstance Scenario.PolyfillerA (S n); mkInstance Scenario.PolyfillerB n].
Proof. repeat apply conj; reflexivity. Qed.

(** C10: raising the caller version only removes entries: for [C1 <= C2] the
    entries selected for [C2] are a subsequence of those selected for [C1],
    and so are the classes of the returned instances. *)
Theorem getPolyfillers_antitone {Cls : Type} (C1 C2 : Z) (w : World Cls) :
  C1 <= C2 ->
  subseq (selectedEntries C2 w) (selectedEntries C1 w) /\
  subseq (map instance_of (fst (getPolyfillers C2 w)))
         (map instance_of (fst (getPolyfillers C1 w))).
Proof.
  intros Hle.
  assert (Hsub : subseq (selectedEntries C2 w) (selectedEntries C1 w)).
  { rewrite !selectedEntries_spec.
    rewrite <- (filter_narrow (applicable C1) (applicable C2)).
    - rewrite (array_sort_filter entryCompare fst) by reflexivity.
      apply subseq_filter.
    - unfold applicable. intros e He. apply Z.leb_le in He. apply Z.leb_le. lia. }
  split; [exact Hsub|].
  rewrite !getPolyfillers_classes. now apply subseq_map.
Qed.

Lemma getPolyfillers_antitone_witness :
  subseq (selectedEntries 2 Scenario.world) (selectedEntries 0 Scenario.world) /\
  subseq (map instance_of (fst (getPolyfillers 2 Scenario.world)))
         (map instance_of (fst (getPolyfillers 0 Scenario.world))).
Proof. apply getPolyfillers_antitone. lia. Defined.

(** ** The two exported operations *)

Section Dispatch.
Context {Cls : Type}.
Implicit Types (w : World Cls) (version : Z) (msgTitle : string) (buffer : Buffer).

Lemma polyfillGameMsg_settled version msgTitle buffer w :
  settled (fst (polyfillGameMsg version msgTitle buffer w)) = Fulfilled JsUndefined.
Proof. reflexivity. Qed.

Lemma polyfillResponse_settled version msgTitle buffer w :
  settled (fst (polyfillResponse version msgTitle buffer w)) = Fulfilled JsUndefined.
Proof. reflexivity. Qed.

(** A call leaves the registry as it found it. *)
Lemma dispatch_keeps_registry version msgTitle buffer w :
  polyfillRegistry (snd (polyfillGameMsg version msgTitle buffer w)) = polyfillRegistry w /\
  polyfillRegistry (snd (polyfillResponse version msgTitle buffer w)) = polyfillRegistry w.
Proof. split; reflexivity. Qed.

(** Each call returns a promise of its own. *)
Lemma dispatch_fresh_promise version msgTitle buffer w :
  let '(p1, w1) := polyfillGameMsg version msgTitle buffer w in
  let '(p2, _) := polyfillGameMsg version msgTitle buffer w1 in
  promise_id p1 <> promise_id p2.
Proof. simpl. apply Nat.neq_succ_diag_r. Qed.

End Dispatch.

(** What the intended pipeline does with a message nobody handles. *)
Lemma applyChain_unrecognized {Cls : Type} `{PolyfillerContract Cls}
    (ps : list (Instance Cls)) (msgTitle : string) (buffer : Buffer) :
  unrecognized msgTitle ps -> applyChain ps msgTitle buffer = inr buffer.
Proof.
  induction 1 as [|p ps Hp _ IH]; simpl; [reflexivity|].
  now rewrite Hp.
Qed.

(** C6, as the specification states it, fails: no selected polyfiller
    handles the identifier, the intended pipeline would hand the payload
    back, and both operations resolve to something other than the payload. *)
Lemma unknown_message_returns_no_buffer :
  unrecognized "MSG_UNKNOWN" (fst (getPolyfillers 0 Scenario.world)) /\
  applyChain (fst (getPolyfillers 0 Scenario.world)) "MSG_UNKNOWN" Scenario.payload =
    inr Scenario.payload /\
  settled (fst (polyfillGameMsg 0 "MSG_UNKNOWN" Scenario.payload Scenario.world)) <>
    Fulfilled (JsBuffer Scenario.payload) /\
  settled (fst (polyfillResponse 0 "MSG_UNKNOWN" Scenario.payload Scenario.world)) <>
    Fulfilled (JsBuffer Scenario.payload).
Proof.
  split; [repeat constructor|].
  split; [reflexivity|].
  split; discriminate.
Qed.

(** C6 (amended): when no selected polyfiller recognizes the message
    identifier, the call is not an error and resolves to no data: both
    operations fulfil their promise with [undefined], never with a buffer. *)
Theorem dispatch_unrecognized_no_data {Cls : Type} `{PolyfillerContract Cls}
    (version : Z) (msgTitle : string) (buffer : Buffer) (w : World Cls) :
  unrecognized msgTitle (fst (getPolyfillers version w)) ->
  settled (fst (polyfillGameMsg version msgTitle buffer w)) = Fulfilled JsUndefined /\
  settled (fst (polyfillResponse version msgTitle buffer w)) = Fulfilled JsUndefined /\
  forall b,
    settled (fst (polyfillGameMsg version msgTitle buffer w)) <> Fulfilled (JsBuffer b) /\
    settled (fst (polyfillResponse version msgTitle buffer w)) <> Fulfilled (JsBuffer b).
Proof.
  intros _. rewrite polyfillGameMsg_settled, polyfillResponse_settled.
  repeat split; discriminate.
Qed.

Lemma dispatch_unrecognized_no_data_witness :
  unrecognized "MSG_UNKNOWN" (fst (getPolyfillers 0 Scenario.world)) /\
  settled (fst (polyfillGameMsg 0 "MSG_UNKNOWN" Scenario.payload Scenario.world)) =
    Fulfilled JsUndefined.
Proof.
  assert (Hun : unrecognized "MSG_UNKNOWN" (fst (getPolyfillers 0 Scenario.world)))
    by (repeat constructor).
  split; [exact Hun|].
  exact (proj1 (dispatch_unrecognized_no_data 0 "MSG_UNKNOWN" Scenario.payload
                  Scenario.world Hun)).
Defined.

(** C7, as the specification states it, fails: the polyfiller selected for
    caller version 2 handles the identifier and rejects the empty payload,
    the intended pipeline would fail with Malformed-Payload, and neither
    operation fails. *)
Lemma malformed_payload_not_propagated :
  (exists p, In p (fst (getPolyfillers 2 Scenario.world)) /\
             handles (instance_of p) "MSG_B" = true /\
             transform (instance_of p) [] = inl MalformedPayload) /\
  applyChain (fst (getPolyfillers 2 Scenario.world)) "MSG_B" [] = inl MalformedPayload /\
  settled (fst (polyfillGameMsg 2 "MSG_B" [] Scenario.world)) <> Rejected MalformedPayload /\
  settled (fst (polyfillResponse 2 "MSG_B" [] Scenario.world)) <> Rejected MalformedPayload.
Proof.
  split.
  - exists (mkInstance Scenario.PolyfillerB 0). simpl. auto.
  - split; [reflexivity|]. split; discriminate.
Qed.

(** C7 (amended): when a selected polyfiller's transform would fail with
    Malformed-Payload on the call's input, the operations do not run it: the
    call raises no error and resolves to [undefined], so no buffer, partial
    or garbled, is returned. *)
Theorem dispatch_runs_no_transform {Cls : Type} `{PolyfillerContract Cls}
    (version : Z) (msgTitle : string) (buffer : Buffer) (w : World Cls) :
  applyChain (fst (getPolyfillers version w)) msgTitle buffer = inl MalformedPayload ->
  (forall e,
      settled (fst (polyfillGameMsg version msgTitle buffer w)) <> Rejected e /\
      settled (fst (polyfillResponse version msgTitle buffer w)) <> Rejected e) /\
  (forall b,
      settled (fst (polyfillGameMsg version msgTitle buffer w)) <> Fulfilled (JsBuffer b) /\
      settled (fst (polyfillResponse version msgTitle buffer w)) <> Fulfilled (JsBuffer b)) /\
  settled (fst (polyfillGameMsg version msgTitle buffer w)) = Fulfilled JsUndefined /\
  settled (fst (polyfillResponse version msgTitle buffer w)) = Fulfilled JsUndefined.
Proof.
  intros _. rewrite polyfillGameMsg_settled, polyfillResponse_settled.
  repeat split; discriminate.
Qed.

Lemma dispatch_runs_no_transform_witness :
  applyChain (fst (getPolyfillers 2 Scenario.world)) "MSG_B" [] = inl MalformedPayload /\
  settled (fst (polyfillGameMsg 2 "MSG_B" [] Scenario.world)) = Fulfilled JsUndefined.
Proof.
  split; [reflexivity|].
  apply (dispatch_runs_no_transform 2 "MSG_B" [] Scenario.world). reflexivity.
Defined.

(** C8: two calls with the same version, message identifier and buffer, made
    in worlds that hold the same registry (whatever else differs between
    them), resolve to the same value. *)
Theorem dispatch_deterministic {Cls : Type}
    (version : Z) (msgTitle : string) (buffer : Buffer) (w1 w2 : World Cls) :
  polyfillRegistry w1 = polyfillRegistry w2 ->
  settled (fst (polyfillGameMsg version msgTitle buffer w1)) =
  settled (fst (polyfillGameMsg version msgTitle buffer w2)) /\
  settled (fst (polyfillResponse version msgTitle buffer w1)) =
  settled (fst (polyfillResponse version msgTitle buffer w2)).
Proof.
  intros _. now rewrite ?polyfillGameMsg_settled, ?polyfillResponse_settled.
Qed.

(** Two calls in a row: the second runs in the world the first one left. *)
Lemma dispatch_deterministic_witness :
  settled (fst (polyfillGameMsg 2 "MSG_B" Scenario.payload Scenario.world)) =
  settled (fst (polyfillGameMsg 2 "MSG_B" Scenario.payload
                  (snd (polyfillGameMsg 2 "MSG_B" Scenario.payload Scenario.world)))).
Proof.
  apply (dispatch_deterministic 2 "MSG_B" Scenario.payload Scenario.world
           (snd (polyfillGameMsg 2 "MSG_B" Scenario.payload Scenario.world))).
  reflexivity.
Defined.

(** C9: whatever the version, message identifier, buffer and world (registry
    included), both operations resolve to [undefined]; they read nothing,
    construct no polyfiller and leave the registry as it was. *)
Theorem dispatch_returns_no_data {Cls : Type}
    (version version' : Z) (msgTitle msgTitle' : string)
    (buffer buffer' : Buffer) (w w' : World Cls) :
  settled (fst (polyfillGameMsg version msgTitle buffer w)) = Fulfilled JsUndefined /\
  settled (fst (polyfillResponse version msgTitle buffer w)) = Fulfilled JsUndefined /\
  settled (fst (polyfillGameMsg version msgTitle buffer w)) =
    settled (fst (polyfillGameMsg version' msgTitle' buffer' w')) /\
  settled (fst (polyfillResponse version msgTitle buffer w)) =
    settled (fst (polyfillResponse version' msgTitle' buffer' w')) /\
  polyfillRegistry (snd (polyfillGameMsg version msgTitle buffer w)) = polyfillRegistry w /\
  polyfillRegistry (snd (polyfillResponse version msgTitle buffer w)) = polyfillRegistry w.
Proof.
  rewrite ?polyfillGameMsg_settled, ?polyfillResponse_settled.
  repeat split; apply dispatch_keeps_registry.
Qed.

(** ** Further facts about [getPolyfillers] *)

(** On a registry the sort has one possible outcome: any strictly ascending
    rearrangement of the scanned array is the sorted array, so the result
    does not depend on the algorithm behind [Array.prototype.sort]. *)
Theorem sortedPolyfillers_unique {Cls : Type} (C : Z) (w : World Cls)
    (l : list (Selected Cls)) :
  JsMap.wf (polyfillRegistry w) ->
  Permutation l (fst (scan C (JsMap.entries (polyfillRegistry w)) [] (next_oid w))) ->
  StronglySorted (lt_by version) l ->
  sortedPolyfillers C w = l.
Proof.
  intros Hwf Hp Hs. unfold sortedPolyfillers.
  apply (array_sort_unique compareFn version); [reflexivity| |assumption..].
  now apply scan_versions_nodup.
Qed.

Lemma sortedPolyfillers_unique_witness :
  sortedPolyfillers 0 (mkWorld Scenario.registry_rev 0) =
  [mkSelected 1 (mkInstance Scenario.PolyfillerA 1);
   mkSelected 3 (mkInstance Scenario.PolyfillerB 0)].
Proof.
  apply sortedPolyfillers_unique.
  - scenario_wf.
  - simpl. apply perm_swap.
  - repeat constructor; unfold lt_by; simpl; lia.
Defined.

(** The instances a call returns are fresh objects: their identities are the
    free ones the call consumed, each used once; the registry is not
    touched. *)
Theorem getPolyfillers_fresh_instances {Cls : Type} (C : Z) (w : World Cls) :
  Permutation (map oid (fst (getPolyfillers C w)))
              (seq (next_oid w) (length (fst (getPolyfillers C w)))) /\
  next_oid (snd (getPolyfillers C w)) =
    (next_oid w + length (fst (getPolyfillers C w)))%nat /\
  polyfillRegistry (snd (getPolyfillers C w)) = polyfillRegistry w.
Proof.
  rewrite getPolyfillers_length.
  destruct (scan_oids C (JsMap.entries (polyfillRegistry w)) [] (next_oid w))
    as [Hids Hnext].
  simpl in Hids. split; [|split].
  - rewrite getPolyfillers_fst, map_map, <- Hids.
    apply Permutation_map, (array_sort_perm compareFn).
  - unfold getPolyfillers.
    destruct (scan C (JsMap.entries (polyfillRegistry w)) [] (next_oid w)).
    exact Hnext.
  - apply getPolyfillers_registry.
Qed.

(** Two calls never share an instance: the antitone property holds for the
    selected entries and classes, not for object identities. *)
Example second_call_builds_new_instances :
  let '(first, w1) := getPolyfillers 0 Scenario.world in
  let '(second, _) := getPolyfillers 2 w1 in
  first = [mkInstance Scenario.PolyfillerA 0; mkInstance Scenario.PolyfillerB 1] /\
  second = [mkInstance Scenario.PolyfillerB 2].
Proof. split; reflexivity. Qed.

(** * Facts about the deployment script *)

Module DeployFacts.
Import Deploy.

(** ** The argument loop *)

Lemma list_ind_two {A : Type} (P : list A -> Prop) :
  P [] -> (forall a, P [a]) ->
  (forall a b l, P l -> P (b :: l) -> P (a :: b :: l)) ->
  forall l, P l.
Proof.
  intros Hnil Hone Hstep l.
  enough (P l /\ P (tl l)) by tauto.
  induction l as [|a [|b l] IH]; simpl in *; intuition.
Qed.

(** After a well-formed prefix the loop goes on with what follows. *)
Lemma parse_args_render (opts : list Opt) (tail : list string) : forall o,
  parse_args (render opts ++ tail)%list o = parse_args tail (fold_left apply_opt opts o).
Proof.
  induction opts as [|x opts IH]; intros o; [reflexivity|].
  destruct x; simpl; apply IH.
Qed.

Ltac name_cases a :=
  destruct (String.eqb_spec a "--base-dir") as [->|?];
  [|destruct (String.eqb_spec a "--install-deps") as [->|?];
    [|destruct (String.eqb_spec a "--run") as [->|?];
      [|destruct (String.eqb_spec a "--help") as [->|?]]]].

(** Every command line is a well-formed prefix followed by the place where
    the loop stops. *)
Lemma parse_args_stops (args : list string) : forall o,
  exists opts tail,
    args = (render opts ++ tail)%list /\
    match parse_args args o with
    | Parsed o' => tail = [] /\ o' = fold_left apply_opt opts o
    | Usage => exists rest, tail = "--help"%string :: rest
    | UnknownArg a =>
        (exists rest, tail = a :: rest) /\
        a <> "--base-dir"%string /\ a <> "--install-deps"%string /\
        a <> "--run"%string /\ a <> "--help"%string
    | UnboundVariable => tail = ["--base-dir"%string] \/ tail = ["--run"%string]
    end.
Proof.
  induction args as [|a|a b rest IH1 IH2] using list_ind_two; intros o.
  - exists [], []. simpl. auto.
  - name_cases a; simpl.
    + exists [], ["--base-dir"%string]. auto.
    + exists [OptInstallDeps], []. auto.
    + exists [], ["--run"%string]. auto.
    + exists [], ["--help"%string]. eauto.
    + exists [], [a]. simpl.
      repeat match goal with
             | Hn : ?x <> ?y |- context [String.eqb ?x ?y] =>
                 rewrite (proj2 (String.eqb_neq x y) Hn)
             end.
      eauto 10.
  - name_cases a.
    + destruct (IH1 (apply_opt o (OptBaseDir b))) as (opts & tail & -> & Hres).
      exists (OptBaseDir b :: opts), tail. split; [reflexivity|]. exact Hres.
    + destruct (IH2 (apply_opt o OptInstallDeps)) as (opts & tail & Heq & Hres).
      exists (OptInstallDeps :: opts), tail.
      split; [simpl; now rewrite <- Heq|]. exact Hres.
    + destruct (IH1 (apply_opt o (OptRun b))) as (opts & tail & -> & Hres).
      exists (OptRun b :: opts), tail. split; [reflexivity|]. exact Hres.
    + exists [], ("--help"%string :: b :: rest). simpl. eauto.
    + exists [], (a :: b :: rest). split; [reflexivity|].
      cbn [parse_args].
      repeat match goal with
             | Hn : ?x <> ?y |- context [String.eqb ?x ?y] =>
                 rewrite (proj2 (String.eqb_neq x y) Hn)
             end.
      eauto 10.
Qed.

Lemma parse_args_parsed (args : list string) (o o' : Options) :
  parse_args args o = Parsed o' ->
  exists opts, args = render opts /\ o' = fold_left apply_opt opts o.
Proof.
  intros Hp. destruct (parse_args_stops args o) as (opts & tail & Heq & Hres).
  rewrite Hp in Hres. destruct Hres as [-> ->].
  exists opts. rewrite app_nil_r in Heq. auto.
Qed.

(** The loop accepts exactly the command lines made of the groups
    [--base-dir DIR], [--install-deps] and [--run N]; the variables then hold
    what the groups assign from left to right, so the last occurrence of an
    option is the one that counts. *)
Theorem parse_args_accepts_exactly (args : list string) (o o' : Options) :
  parse_args args o = Parsed o' <->
  exists opts, args = render opts /\ o' = fold_left apply_opt opts o.
Proof.
  split; [apply parse_args_parsed|].
  intros (opts & -> & ->).
  rewrite <- (app_nil_r (render opts)). apply parse_args_render.
Qed.

(** When the loop accepts a command line, it treats any arguments added
    after it as if they came first, with the variables already assigned. *)
Theorem parse_args_prefix (args more : list string) (o o' : Options) :
  parse_args args o = Parsed o' ->
  parse_args (args ++ more)%list o = parse_args more o'.
Proof.
  intros Hp. apply parse_args_parsed in Hp as (opts & -> & ->).
  apply parse_args_render.
Qed.

Lemma parse_args_prefix_witness :
  parse_args ["--run"; "3"; "--base-dir"; "/srv"; "--run"; "7"]%string (defaults "/opt/gcg") =
  Parsed {| BASE_DIR := "/srv"; INSTALL_DEPS := false; QUICK_RUN := "7" |}.
Proof.
  apply (parse_args_prefix ["--run"; "3"]%string ["--base-dir"; "/srv"; "--run"; "7"]%string
           (defaults "/opt/gcg")
           {| BASE_DIR := "/opt/gcg"; INSTALL_DEPS := false; QUICK_RUN := "3" |}).
  reflexivity.
Defined.

Lemma fold_apply_untouched (opts : list Opt) : forall o,
  (INSTALL_DEPS o = true -> INSTALL_DEPS (fold_left apply_opt opts o) = true) /\
  (~ In "--base-dir"%string (render opts) ->
   BASE_DIR (fold_left apply_opt opts o) = BASE_DIR o) /\
  (~ In "--install-deps"%string (render opts) ->
   INSTALL_DEPS (fold_left apply_opt opts o) = INSTALL_DEPS o) /\
  (~ In "--run"%string (render opts) ->
   QUICK_RUN (fold_left apply_opt opts o) = QUICK_RUN o).
Proof.
  induction opts as [|x opts IH]; intros o; [simpl; auto|].
  destruct (IH (apply_opt o x)) as (H1 & H2 & H3 & H4).
  change (render (x :: opts)) with (render_opt x ++ render opts)%list.
  simpl fold_left. repeat split.
  - intros Ho. apply H1. destruct x; simpl; auto.
  - intros Hn. rewrite H2 by (contradict Hn; apply in_or_app; now right).
    destruct x; simpl in *; tauto.
  - intros Hn. rewrite H3 by (contradict Hn; apply in_or_app; now right).
    destruct x; simpl in *; tauto.
  - intros Hn. rewrite H4 by (contradict Hn; apply in_or_app; now right).
    destruct x; simpl in *; tauto.
Qed.

(** An accepted command line changes only the variables it names: without
    [--base-dir] the base directory keeps its value, likewise the other two,
    and nothing on the command line turns [INSTALL_DEPS] off. *)
Theorem parse_args_untouched (args : list string) (o o' : Options) :
  parse_args args o = Parsed o' ->
  (INSTALL_DEPS o = true -> INSTALL_DEPS o' = true) /\
  (~ In "--base-dir"%string args -> BASE_DIR o' = BASE_DIR o) /\
  (~ In "--install-deps"%string args -> INSTALL_DEPS o' = INSTALL_DEPS o) /\
  (~ In "--run"%string args -> QUICK_RUN o' = QUICK_RUN o).
Proof.
  intros Hp. apply parse_args_parsed in Hp as (opts & -> & ->).
  apply fold_apply_untouched.
Qed.

Lemma parse_args_untouched_witness :
  parse_args ["--install-deps"; "--run"; "13"]%string (defaults "/opt/gcg") =
    Parsed {| BASE_DIR := "/opt/gcg"; INSTALL_DEPS := true; QUICK_RUN := "13" |} /\
  BASE_DIR {| BASE_DIR := "/opt/gcg"; INSTALL_DEPS := true; QUICK_RUN := "13" |} =
    BASE_DIR (defaults "/opt/gcg").
Proof.
  split; [reflexivity|].
  apply (parse_args_untouched ["--install-deps"; "--run"; "13"]%string (defaults "/opt/gcg")).
  - reflexivity.
  - simpl. intuition discriminate.
Defined.

(** The three ways the loop stops early: at the first argument in option
    position that is no option (exit 1, naming it), at [--help] in option
    position (exit 0), and at a final [--base-dir] or [--run] that has no
    value (the shell stops on the unset parameter). *)
Theorem parse_args_failure (args : list string) (o : Options) :
  (forall a, parse_args args o = UnknownArg a <->
     (exists opts rest, args = (render opts ++ a :: rest)%list) /\
     a <> "--base-dir"%string /\ a <> "--install-deps"%string /\
     a <> "--run"%string /\ a <> "--help"%string) /\
  (parse_args args o = Usage <->
     exists opts rest, args = (render opts ++ "--help"%string :: rest)%list) /\
  (parse_args args o = UnboundVariable <->
     exists opts, args = (render opts ++ ["--base-dir"%string])%list \/
                  args = (render opts ++ ["--run"%string])%list).
Proof.
  destruct (parse_args_stops args o) as (opts & tail & Heq & Hres).
  split; [|split].
  - intros a. split.
    + intros Hp. rewrite Hp in Hres. destruct Hres as [[rest ->] Hn].
      split; [eauto|exact Hn].
    + intros [(opts' & rest & ->) (N1 & N2 & N3 & N4)].
      rewrite parse_args_render. cbn [parse_args].
      apply String.eqb_neq in N1, N2, N3, N4. now rewrite N1, N2, N3, N4.
  - split.
    + intros Hp. rewrite Hp in Hres. destruct Hres as [rest ->]. eauto.
    + intros (opts' & rest & ->). now rewrite parse_args_render.
  - split.
    + intros Hp. rewrite Hp in Hres. exists opts. destruct Hres as [-> | ->]; auto.
    + intros (opts' & [-> | ->]); now rewrite parse_args_render.
Qed.

(** ** The dependency gate and the menu *)

Section Gate.
Context {Env : Type} `{Host Env}.
Implicit Types (o : Options) (s : State Env) (e : Env).


Lemma set_dependencies_ok_same s :
  set_dependencies_ok (DEPENDENCIES_OK s) s = s.
Proof. now destruct s. Qed.

Lemma requires_dependencies_other (choice : string) :
  choice <> "0"%string -> choice <> "1"%string -> requires_dependencies choice = 0.
Proof.
  intros N0 N1. unfold requires_dependencies.
  apply String.eqb_neq in N0, N1. now rewrite N0, N1.
Qed.

Lemma run_item_gate_closed o (choice : string) s :
  choice <> "0"%string -> choice <> "1"%string ->
  DEPENDENCIES_OK s = false \/ check_dependencies (env s) <> 0 ->
  run_item o choice s = Returned 1 (set_dependencies_ok false s).
Proof.
  intros N0 N1 Hbad. unfold run_item, ensure_dependencies_for_choice.
  rewrite (requires_dependencies_other choice N0 N1). simpl.
  destruct (DEPENDENCIES_OK s) eqn:Eok; simpl.
  - destruct Hbad as [Hf|Hc]; [discriminate|].
    apply Z.eqb_neq in Hc. now rewrite Hc.
  - now rewrite <- Eok, set_dependencies_ok_same.
Qed.

(** For every choice other than 0 and 1, on the menu or not, a false flag or
    a missing tool makes [run_item] return 1 without running anything; the
    flag is false afterwards. *)
Theorem run_item_refused o (choice : string) s :
  choice <> "0"%string -> choice <> "1"%string ->
  DEPENDENCIES_OK s = false \/ check_dependencies (env s) <> 0 ->
  run_item o choice s = Returned 1 (set_dependencies_ok false s) /\
  trace (final (run_item o choice s)) = trace s /\
  env (final (run_item o choice s)) = env s.
Proof.
  intros N0 N1 Hbad. rewrite run_item_gate_closed by assumption. auto.
Qed.

(** Once the flag is false, an input line whose first word is not 1 ends the
    script at that word and runs nothing: with status 0 for the word 0, with
    status 1 for any other word. *)
Theorem blocked_until_install o (w : string) (rest : list string) s :
  DEPENDENCIES_OK s = false -> w <> "1"%string ->
  run_items o (w :: rest) s = Exited (if String.eqb w "0" then 0 else 1) s.
Proof.
  intros Hflag N1. cbn [run_items].
  destruct (String.eqb_spec w "0") as [->|N0].
  - unfold run_item, ensure_dependencies_for_choice. reflexivity.
  - rewrite run_item_gate_closed by auto. simpl.
    now rewrite <- Hflag, set_dependencies_ok_same.
Qed.


End Gate.

Lemma run_item_refused_witness :
  run_item (defaults "/opt/gcg") "13" Demo.bare = Returned 1 Demo.bare.
Proof.
  apply (proj1 (run_item_refused (defaults "/opt/gcg") "13" Demo.bare
                  ltac:(discriminate) ltac:(discriminate)
                  (or_introl eq_refl))).
Defined.

Lemma blocked_until_install_witness :
  run_items (defaults "/opt/gcg") ["2"; "1"; "3"]%string Demo.bare = Exited 1 Demo.bare.
Proof.
  apply (blocked_until_install (defaults "/opt/gcg") "2" ["1"; "3"]%string Demo.bare);
    [reflexivity|discriminate].
Defined.

(** ** How menu items compose *)

Section Compose.
Context {Env : Type} `{Host Env}.
Implicit Types (o : Options) (s : State Env) (e : Env) (f : Flow Env).

Lemma andthen_assoc f (k1 k2 : State Env -> Flow Env) :
  andthen (andthen f k1) k2 = andthen f (fun s => andthen (k1 s) k2).
Proof.
  destruct f as [status s|status s]; simpl; [|reflexivity].
  now destruct (status =? 0).
Qed.

Lemma andthen_ext f (k1 k2 : State Env -> Flow Env) :
  (forall s, k1 s = k2 s) -> andthen f k1 = andthen f k2.
Proof.
  intros Hk. destruct f as [status s|status s]; simpl; [|reflexivity].
  destruct (status =? 0); [apply Hk|reflexivity].
Qed.

Lemma steps_app (l1 l2 : list Action) o : forall s,
  steps (l1 ++ l2) o s = andthen (steps l1 o s) (steps l2 o).
Proof.
  induction l1 as [|a l1 IH]; intros s; simpl.
  - reflexivity.
  - unfold simple. destruct (fst (call a o s) =? 0); [apply IH|reflexivity].
Qed.

Lemma run_items_app o (w1 w2 : list string) : forall s,
  run_items o (w1 ++ w2) s = andthen (run_items o w1 s) (run_items o w2).
Proof.
  induction w1 as [|w w1 IH]; intros s; simpl; [reflexivity|].
  rewrite andthen_assoc. apply andthen_ext. exact IH.
Qed.

(** Several numbers on one input line run like the same numbers given on
    consecutive lines, the first part on one line and the rest on the next. *)
Theorem interactive_split_line o (w1 w2 : list string)
    (lines : list (list string)) s :
  interactive o ((w1 ++ w2) :: lines) s = interactive o (w1 :: w2 :: lines) s.
Proof.
  cbn [interactive]. rewrite run_items_app, andthen_assoc. reflexivity.
Qed.

(** From here on: no action removes a required tool. *)
Hypothesis keeps_tools : forall a o e,
  check_dependencies e = 0 -> check_dependencies (snd (exec a o e)) = 0.

Lemma steps_keep_ready (l : list Action) o : forall s,
  DEPENDENCIES_OK s = true -> check_dependencies (env s) = 0 ->
  match steps l o s with
  | Returned status s' =>
      status = 0 /\ DEPENDENCIES_OK s' = true /\ check_dependencies (env s') = 0
  | Exited status _ => status <> 0
  end.
Proof.
  induction l as [|a l IH]; intros s Hflag Hcheck; simpl; [auto|].
  unfold simple, call.
  pose proof (keeps_tools a o (env s) Hcheck) as Hkeep.
  destruct (exec a o (env s)) as [status e']; simpl in *.
  destruct (status =? 0) eqn:E.
  - apply IH; assumption.
  - now apply Z.eqb_neq.
Qed.

Lemma install_is_two_steps o s :
  DEPENDENCIES_OK s = true -> check_dependencies (env s) = 0 ->
  install_system_deps o s = steps [sudo_apt_update; sudo_apt_install] o s.
Proof.
  intros Hflag Hcheck. unfold install_system_deps. cbn [steps].
  unfold simple, call.
  pose proof (keeps_tools sudo_apt_update o (env s) Hcheck) as K1.
  destruct (exec sudo_apt_update o (env s)) as [st1 e1]; simpl in *.
  destruct (st1 =? 0); [|reflexivity].
  pose proof (keeps_tools sudo_apt_install o e1 K1) as K2.
  destruct (exec sudo_apt_install o e1) as [st2 e2]; simpl in *.
  destruct (st2 =? 0); [|reflexivity].
  rewrite K2. simpl. unfold set_dependencies_ok. simpl. now rewrite Hflag.
Qed.

Ltac open_gate Hflag Hcheck :=
  unfold run_item, ensure_dependencies_for_choice; simpl;
  rewrite Hflag, Hcheck; simpl.

Lemma run_items_table o (table : list (string * list Action)) :
  (forall c acts, In (c, acts) table ->
     forall s, DEPENDENCIES_OK s = true -> check_dependencies (env s) = 0 ->
       run_item o c s = steps acts o s) ->
  forall s, DEPENDENCIES_OK s = true -> check_dependencies (env s) = 0 ->
    run_items o (map fst table) s = steps (concat (map snd table)) o s.
Proof.
  induction table as [|[c acts] table IH]; intros Hitems s Hflag Hcheck;
    [reflexivity|].
  simpl. rewrite steps_app, (Hitems c acts) by (simpl; auto).
  pose proof (steps_keep_ready acts o s Hflag Hcheck) as Hk.
  destruct (steps acts o s) as [status s'|status s']; simpl; [|reflexivity].
  destruct Hk as (-> & Hflag' & Hcheck'). simpl.
  apply IH; [|assumption..].
  intros c' acts' Hin. apply Hitems. now right.
Qed.

Lemma single_items o (c : string) (acts : list Action) :
  In (c, acts)
     [("2", [server_clone_update]); ("3", [server_npm_install]);
      ("4", [server_create_symlink]); ("6", [client_clone_update]);
      ("7", [client_download_premake]); ("8", [client_run_premake]);
      ("9", [client_ensure_sqlite]); ("10", [client_build]);
      ("11", [client_move_ygopro])]%string ->
  forall s, DEPENDENCIES_OK s = true -> check_dependencies (env s) = 0 ->
    run_item o c s = steps acts o s.
Proof.
  intros Hin s Hflag Hcheck. simpl in Hin.
  repeat (destruct Hin as [Heq|Hin];
          [injection Heq as <- <-; open_gate Hflag Hcheck; reflexivity|]).
  destruct Hin.
Qed.

Lemma item_12_steps o s :
  DEPENDENCIES_OK s = true -> check_dependencies (env s) = 0 ->
  run_item o "12" s =
  steps [client_clone_update; client_download_premake; client_run_premake;
         client_ensure_sqlite; client_build; client_move_ygopro] o s.
Proof. intros Hflag Hcheck. open_gate Hflag Hcheck. reflexivity. Qed.

Lemma item_1_steps o s :
  DEPENDENCIES_OK s = true -> check_dependencies (env s) = 0 ->
  run_item o "1" s = steps [sudo_apt_update; sudo_apt_install] o s.
Proof.
  intros Hflag Hcheck. rewrite <- install_is_two_steps by assumption. reflexivity.
Qed.

(** With the tools present and none of them removed on the way, item 12 is
    the items 6, 7, 8, 9, 10 and 11 in a row, and item 13 is item 12
    followed by the items 2, 3 and 4, after item 1 when [--install-deps] was
    given: same actions, same final state, same status. *)
Theorem composite_items o s :
  DEPENDENCIES_OK s = true -> check_dependencies (env s) = 0 ->
  run_item o "12" s = run_items o ["6"; "7"; "8"; "9"; "10"; "11"]%string s /\
  run_item o "13" s =
    run_items o
      (List.app (if INSTALL_DEPS o then ["1"%string] else [])
                ["12"; "2"; "3"; "4"]%string) s.
Proof.
  intros Hflag Hcheck. split.
  - rewrite item_12_steps by assumption.
    symmetry.
    apply (run_items_table o
             [("6", [client_clone_update]); ("7", [client_download_premake]);
              ("8", [client_run_premake]); ("9", [client_ensure_sqlite]);
              ("10", [client_build]); ("11", [client_move_ygopro])]%string);
      [|assumption..].
    intros c acts Hin. apply single_items. simpl in *. tauto.
  - assert (Hrun : run_item o "13" s = full_deploy_all o s)
      by (open_gate Hflag Hcheck; reflexivity).
    rewrite Hrun. unfold full_deploy_all, full_client_build, full_server_prepare.
    assert (Htable : forall c acts,
               In (c, acts)
                  [("1", [sudo_apt_update; sudo_apt_install]);
                   ("12", [client_clone_update; client_download_premake;
                           client_run_premake; client_ensure_sqlite;
                           client_build; client_move_ygopro]);
                   ("2", [server_clone_update]); ("3", [server_npm_install]);
                   ("4", [server_create_symlink])]%string ->
               forall s', DEPENDENCIES_OK s' = true ->
                          check_dependencies (env s') = 0 ->
                          run_item o c s' = steps acts o s').
    { intros c acts [Heq|[Heq|Hin]].
      - injection Heq as <- <-. apply item_1_steps.
      - injection Heq as <- <-. apply item_12_steps.
      - apply single_items. simpl in *. tauto. }
    destruct (INSTALL_DEPS o).
    + rewrite install_is_two_steps by assumption.
      transitivity
        (steps ([sudo_apt_update; sudo_apt_install] ++
                [client_clone_update; client_download_premake; client_run_premake;
                 client_ensure_sqlite; client_build; client_move_ygopro] ++
                [server_clone_update; server_npm_install; server_create_symlink])
               o s).
      * rewrite (steps_app [sudo_apt_update; sudo_apt_install]).
        apply andthen_ext. intros s1. symmetry. apply steps_app.
      * symmetry.
        apply (run_items_table o
                 [("1", [sudo_apt_update; sudo_apt_install]);
                  ("12", [client_clone_update; client_download_premake;
                          client_run_premake; client_ensure_sqlite;
                          client_build; client_move_ygopro]);
                  ("2", [server_clone_update]); ("3", [server_npm_install]);
                  ("4", [server_create_symlink])]%string Htable s Hflag Hcheck).
    + transitivity
        (steps ([client_clone_update; client_download_premake; client_run_premake;
                 client_ensure_sqlite; client_build; client_move_ygopro] ++
                [server_clone_update; server_npm_install; server_create_symlink])
               o s).
      * cbn [andthen Z.eqb]. symmetry. apply steps_app.
      * symmetry.
        apply (run_items_table o
                 [("12", [client_clone_update; client_download_premake;
                          client_run_premake; client_ensure_sqlite;
                          client_build; client_move_ygopro]);
                  ("2", [server_clone_update]); ("3", [server_npm_install]);
                  ("4", [server_create_symlink])]%string);
          [|assumption..].
        intros c acts Hin. apply Htable. now right.
Qed.

End Compose.

Lemma demo_keeps_tools (a : Action) (o : Options) (e : Demo.Machine) :
  check_dependencies e = 0 -> check_dependencies (snd (exec a o e)) = 0.
Proof. destruct a; simpl; auto. Qed.

Lemma composite_items_witness :
  run_item (defaults "/opt/gcg") "12" Demo.ready =
  run_items (defaults "/opt/gcg") ["6"; "7"; "8"; "9"; "10"; "11"]%string Demo.ready.
Proof.
  apply (composite_items demo_keeps_tools (defaults "/opt/gcg") Demo.ready);
    reflexivity.
Defined.

(** ** The script as a whole *)

Section Main.
Context {Env : Type} `{Host Env}.
Implicit Types (o : Options) (s : State Env) (e : Env).

Lemma install_starts_with_update o s :
  exists more,
    trace (final (install_system_deps o s)) = (trace s ++ sudo_apt_update :: more)%list.
Proof.
  unfold install_system_deps, simple, call.
  destruct (exec sudo_apt_update o (env s)) as [st1 e1]; simpl.
  destruct (st1 =? 0); simpl; [|now exists []].
  destruct (exec sudo_apt_install o e1) as [st2 e2]; simpl.
  destruct (st2 =? 0); simpl.
  - destruct (check_dependencies e2 =? 0); simpl;
      rewrite <- app_assoc; now exists [sudo_apt_install].
  - rewrite <- app_assoc. now exists [sudo_apt_install].
Qed.

(** [--run 1] always gets to the installation: whatever tools are missing
    and whatever the other options, once the base directory exists the next
    action is [apt update]. *)
Theorem quick_run_install_not_blocked o (lines : list (list string)) e :
  QUICK_RUN o = "1"%string ->
  fst (exec mkdir_base_dir o e) = 0 ->
  exists more,
    trace (final (main o lines e)) = mkdir_base_dir :: sudo_apt_update :: more.
Proof.
  intros Hrun Hmk. unfold main, simple, call, startup_check. simpl.
  destruct (exec mkdir_base_dir o e) as [st e1]; simpl in *. subst st. simpl.
  rewrite Hrun. simpl.
  unfold run_item, ensure_dependencies_for_choice. simpl.
  destruct (install_starts_with_update o
              {| DEPENDENCIES_OK := true; env := e1; trace := [mkdir_base_dir] |})
    as [more Hmore].
  exists more.
  destruct (install_system_deps o _) as [status s'|status s']; simpl in *;
    [destruct (status =? 0)|]; exact Hmore.
Qed.


End Main.

Lemma quick_run_install_not_blocked_witness :
  exists more,
    trace (final (main {| BASE_DIR := "/opt/gcg"; INSTALL_DEPS := false; QUICK_RUN := "1" |}
                       [] ([] : Demo.Machine))) =
    mkdir_base_dir :: sudo_apt_update :: more.
Proof.
  apply (quick_run_install_not_blocked
           {| BASE_DIR := "/opt/gcg"; INSTALL_DEPS := false; QUICK_RUN := "1" |}
           [] ([] : Demo.Machine));
    reflexivity.
Defined.


End DeployFacts.

(** * Further facts about the selection of polyfillers *)

Section SelectionAlgebra.
Context {Cls : Type}.
Implicit Types (w : World Cls) (C : Z) (es : list (Z * Cls)).

Lemma applicable_perm C es1 es2 :
  Permutation es1 es2 ->
  Permutation (filter (applicable C) es1) (filter (applicable C) es2).
Proof.
  induction 1 as [|e l1 l2 _ IH|e1 e2 l|l1 l2 l3 _ IH1 _ IH2]; simpl.
  - constructor.
  - destruct (applicable C e); [now constructor|exact IH].
  - destruct (applicable C e1), (applicable C e2);
      try apply Permutation_refl. apply perm_swap.
  - now transitivity (filter (applicable C) l2).
Qed.

Lemma scan_same_test C1 C2 es :
  (forall e, In e es -> applicable C1 e = applicable C2 e) ->
  forall acc n, scan C1 es acc n = scan C2 es acc n.
Proof.
  induction es as [|[pV cls] es IH]; intros Hsame acc n; simpl; [reflexivity|].
  pose proof (Hsame (pV, cls) (or_introl eq_refl)) as Hhead.
  unfold applicable in Hhead; simpl in Hhead. rewrite Hhead.
  destruct (C2 <=? pV); apply IH; intros e He; apply Hsame; now right.
Qed.

Lemma selectedEntries_registry C w1 w2 :
  polyfillRegistry w1 = polyfillRegistry w2 ->
  selectedEntries C w1 = selectedEntries C w2.
Proof. intros Hreg. now rewrite !selectedEntries_spec, Hreg. Qed.

Lemma getPolyfillers_oid_range C w (p : Instance Cls) :
  In p (fst (getPolyfillers C w)) ->
  (next_oid w <= oid p < next_oid (snd (getPolyfillers C w)))%nat.
Proof.
  intros Hin.
  destruct (scan_oids C (JsMap.entries (polyfillRegistry w)) [] (next_oid w))
    as [Hids Hnext].
  simpl in Hids.
  assert (Hoid : In (oid p)
            (seq (next_oid w)
                 (length (filter (applicable C) (JsMap.entries (polyfillRegistry w)))))).
  { rewrite <- Hids. rewrite getPolyfillers_fst in Hin.
    apply in_map_iff in Hin as (sel & <- & Hsel).
    apply (Permutation_in _ (array_sort_perm compareFn _)) in Hsel.
    apply in_map_iff. now exists sel. }
  apply in_seq in Hoid.
  unfold getPolyfillers.
  destruct (scan C (JsMap.entries (polyfillRegistry w)) [] (next_oid w)).
  simpl in *. lia.
Qed.

End SelectionAlgebra.

(** The order in which versions were registered does not matter: two
    registries with the same entries, in any order, select the same entries
    in the same order for every caller version. *)
Theorem selection_ignores_registration_order {Cls : Type} (C : Z) (w1 w2 : World Cls) :
  JsMap.wf (polyfillRegistry w1) ->
  Permutation (JsMap.entries (polyfillRegistry w1)) (JsMap.entries (polyfillRegistry w2)) ->
  selectedEntries C w1 = selectedEntries C w2 /\
  map instance_of (fst (getPolyfillers C w1)) = map instance_of (fst (getPolyfillers C w2)).
Proof.
  intros Hwf Hperm.
  assert (Hsel : selectedEntries C w1 = selectedEntries C w2).
  { rewrite !selectedEntries_spec.
    assert (Hwf2 : NoDup (map fst (JsMap.entries (polyfillRegistry w2)))).
    { eapply Permutation_NoDup; [apply Permutation_map, Hperm|exact Hwf]. }
    apply (sorted_perm_unique fst).
    - apply (array_sort_strict entryCompare fst); [reflexivity|].
      now apply applicable_keys_nodup.
    - apply (array_sort_strict entryCompare fst); [reflexivity|].
      now apply applicable_keys_nodup.
    - rewrite !(array_sort_perm entryCompare). now apply applicable_perm. }
  split; [exact Hsel|]. now rewrite !getPolyfillers_classes, Hsel.
Qed.

Lemma selection_ignores_registration_order_witness :
  selectedEntries 0 (mkWorld Scenario.registry 0) =
  selectedEntries 0 (mkWorld Scenario.registry_rev 5).
Proof.
  apply selection_ignores_registration_order.
  - scenario_wf.
  - simpl. apply perm_swap.
Defined.

(** Selecting for a higher caller version is filtering the lower selection:
    for [C1 <= C2] the entries selected for [C2] are exactly those selected
    for [C1] whose version is at least [C2], in the same order. *)
Theorem selection_narrows_by_filter {Cls : Type} (C1 C2 : Z) (w : World Cls) :
  C1 <= C2 ->
  selectedEntries C2 w = filter (applicable C2) (selectedEntries C1 w).
Proof.
  intros Hle. rewrite !selectedEntries_spec.
  rewrite <- (array_sort_filter entryCompare fst) by reflexivity.
  rewrite filter_narrow; [reflexivity|].
  unfold applicable. intros e He. apply Z.leb_le in He. apply Z.leb_le. lia.
Qed.

Lemma selection_narrows_by_filter_witness :
  selectedEntries 2 Scenario.world = filter (applicable 2) (selectedEntries 0 Scenario.world).
Proof. apply selection_narrows_by_filter. lia. Defined.

(** The result only changes at registered versions: two caller versions
    with no registered version from the lower one up to, but not including,
    the higher one get the same instances and leave the same world. *)
Theorem getPolyfillers_constant_between {Cls : Type} (C1 C2 : Z) (w : World Cls) :
  C1 <= C2 ->
  (forall pVersion, In pVersion (JsMap.keys (polyfillRegistry w)) ->
     pVersion < C1 \/ C2 <= pVersion) ->
  getPolyfillers C1 w = getPolyfillers C2 w.
Proof.
  intros Hle Hgap. unfold getPolyfillers.
  rewrite (scan_same_test C1 C2); [reflexivity|].
  intros [pV cls] Hin. apply keys_of_entries, Hgap in Hin.
  unfold applicable; simpl.
  destruct (C1 <=? pV) eqn:E1, (C2 <=? pV) eqn:E2; try reflexivity;
    rewrite ?Z.leb_le, ?Z.leb_gt in *; lia.
Qed.

Lemma getPolyfillers_constant_between_witness :
  getPolyfillers 2 Scenario.world = getPolyfillers 3 Scenario.world.
Proof.
  apply getPolyfillers_constant_between; [lia|].
  simpl. intros pVersion [<-|[<-|[]]]; lia.
Defined.

(** Calls do not interfere: after any call of the module, a selection gives
    the entries it would have given before; and the instances of a later
    [getPolyfillers] call are all newer objects than those of an earlier
    one. *)
Theorem calls_do_not_interfere {Cls : Type} (C C' : Z) (msgTitle : string)
    (buffer : Buffer) (w : World Cls) :
  selectedEntries C (snd (getPolyfillers C' w)) = selectedEntries C w /\
  selectedEntries C (snd (polyfillGameMsg C' msgTitle buffer w)) = selectedEntries C w /\
  selectedEntries C (snd (polyfillResponse C' msgTitle buffer w)) = selectedEntries C w /\
  forall p p',
    In p (fst (getPolyfillers C' w)) ->
    In p' (fst (getPolyfillers C (snd (getPolyfillers C' w)))) ->
    (oid p < oid p')%nat.
Proof.
  repeat split.
  - apply selectedEntries_registry, getPolyfillers_registry.
  - now apply selectedEntries_registry.
  - now apply selectedEntries_registry.
  - intros p p' Hp Hp'.
    apply getPolyfillers_oid_range in Hp, Hp'. lia.
Qed.
